(** * Kuree/systemverilog, chapter 09: the DPI examples

    A shallow embedding of the two C++ translation units of the chapter,

    - [code/09/dog.cc]: the class [Dog] and its four [extern "C"] entry
      points [dog_ctor], [dog_dctor], [dog_run], [dog_distance];
    - [code/09/send_udp_packet.cc]: [read_data] and [send_udp_packet],

    followed by the properties that the specification states about them. *)

From Stdlib Require Import ZArith Lia Strings.Byte Strings.String.
From stdpp Require Import base option list gmap fin_maps.

#[local] Open Scope Z_scope.

(** ** The C++ type [int]

    [int] is the 32-bit two's complement integer of the DPI ABI (it is the
    image of SystemVerilog's [int]).  A value is a [Z] in
    [INT_MIN .. INT_MAX]; arithmetic is computed in [Z] and brought back
    into the range by [int_wrap], which is what the machine addition does.
    (The language standard gives no meaning to a signed overflow; the model
    follows the generated code.) *)
Module Int.

Definition INT_MIN : Z := - 2 ^ 31.
Definition INT_MAX : Z := 2 ^ 31 - 1.

Definition is_int (z : Z) : Prop := INT_MIN <= z <= INT_MAX.

Definition int_wrap (z : Z) : Z := (z + 2 ^ 31) mod 2 ^ 32 - 2 ^ 31.

(** [a + b] on [int]. *)
Definition int_add (a b : Z) : Z := int_wrap (a + b).

End Int.
Export Int.

(** ** Outcomes and the state monad of the embedding

    A call either returns ([Done]), or does not return to its caller
    ([Undef]: it leaves the behaviour that the language defines, by a read
    or a [delete] through a pointer that does not point to a live object,
    or an exception leaves it, which nothing in these files catches), or
    is cut by the fuel of a loop ([OutOfFuel]). *)
Inductive outcome (A : Type) : Type :=
  | Done (a : A)
  | Undef
  | OutOfFuel.
Arguments Done {A} a.
Arguments Undef {A}.
Arguments OutOfFuel {A}.

Definition M (S A : Type) : Type := S -> outcome (A * S).

#[global] Instance M_ret {S} : MRet (M S) :=
  fun A (a : A) s => Done (a, s).

#[global] Instance M_bind {S} : MBind (M S) :=
  fun A B (k : A -> M S B) (m : M S A) s =>
    match m s with
    | Done (a, s') => k a s'
    | Undef => Undef
    | OutOfFuel => OutOfFuel
    end.

(** ** [code/09/dog.cc] *)
Module Dog.

(** [class Dog]: the one data member [int distance_]. *)
Record Dog : Type := mkDog { distance_ : Z }.

(** [Dog(): distance_(0) {}] *)
Definition Dog_new : Dog := {| distance_ := 0 |}.

(** [void run(int distance) { distance_ += distance; }] *)
Definition run (this : Dog) (distance : Z) : Dog :=
  {| distance_ := int_add (distance_ this) distance |}.

(** [int distance() const { return distance_; }] *)
Definition distance (this : Dog) : Z := distance_ this.

(** A [void *]: the null pointer or an address of the free store. *)
Inductive pointer : Type :=
  | nullptr
  | addr (a : positive).

(** The free store: the [Dog] objects that are alive, by address. *)
Abbreviation heap := (gmap positive Dog).

(** [new Dog()] takes an address at which no object lives. *)
Definition alloc (h : heap) : positive := fresh (dom h).

(** [*ptr] for [ptr = reinterpret_cast<Dog*>(dog)]: defined only when a
    [Dog] lives at [dog]. *)
Definition deref (dog : pointer) : M heap Dog :=
  fun h =>
    match dog with
    | nullptr => Undef
    | addr a => match h !! a with
                | Some d => Done (d, h)
                | None => Undef
                end
    end.

(** Assignment to the object at [dog], which a preceding [deref] found
    alive. *)
Definition store (dog : pointer) (d : Dog) : M heap unit :=
  fun h =>
    match dog with
    | nullptr => Undef
    | addr a => match h !! a with
                | Some _ => Done (tt, <[a := d]> h)
                | None => Undef
                end
    end.

(** [void *dog_ctor() { return new Dog(); }] *)
Definition dog_ctor : M heap pointer :=
  fun h => let a := alloc h in Done (addr a, <[a := Dog_new]> h).

(** [void dog_dctor(void *dog) { auto *ptr = reinterpret_cast<Dog*>(dog);
    delete ptr; }]

    [delete] of a null pointer does nothing; [delete] of the address of a
    live object ends its life; any other operand is undefined. *)
Definition dog_dctor (dog : pointer) : M heap unit :=
  fun h =>
    match dog with
    | nullptr => Done (tt, h)
    | addr a => match h !! a with
                | Some _ => Done (tt, delete a h)
                | None => Undef
                end
    end.

(** [void dog_run(void *dog, int distance) { ...; ptr->run(distance); }] *)
Definition dog_run (dog : pointer) (distance : Z) : M heap unit :=
  this ← deref dog; store dog (run this distance).

(** [int dog_distance(void *dog) { ...; return ptr->distance(); }] *)
Definition dog_distance (dog : pointer) : M heap Z :=
  this ← deref dog; mret (distance this).

(** *** Callers

    The foreign caller sees the four entry points only.  [call] names one
    invocation, [calls] runs a sequence of them in order (the values they
    return are dropped), and [session] is the caller of the specification's
    scenario: create a dog, make it run each amount in turn, ask for the
    distance. *)
Inductive call : Type :=
  | Create
  | Destroy (dog : pointer)
  | Increment (dog : pointer) (amount : Z)
  | Query (dog : pointer).

Definition do_call (c : call) : M heap unit :=
  match c with
  | Create => dog_ctor ;; mret tt
  | Destroy dog => dog_dctor dog
  | Increment dog amount => dog_run dog amount
  | Query dog => dog_distance dog ;; mret tt
  end.

Fixpoint calls (cs : list call) : M heap unit :=
  match cs with
  | [] => mret tt
  | c :: cs => do_call c ;; calls cs
  end.

Fixpoint increments (dog : pointer) (amounts : list Z) : M heap unit :=
  match amounts with
  | [] => mret tt
  | amount :: amounts => dog_run dog amount ;; increments dog amounts
  end.

Definition session (amounts : list Z) : M heap Z :=
  dog ← dog_ctor; increments dog amounts ;; dog_distance dog.

(** The sum of a sequence of amounts, in [Z]. *)
Definition total (amounts : list Z) : Z := foldr Z.add 0 amounts.

(** The amounts that a sequence of calls adds to the object at [a], in the
    order of the calls. *)
Fixpoint amounts_of (a : positive) (cs : list call) : list Z :=
  match cs with
  | [] => []
  | Increment (addr b) amount :: cs =>
      if decide (a = b) then amount :: amounts_of a cs else amounts_of a cs
  | _ :: cs => amounts_of a cs
  end.

(** A handle is live when a [Dog] was created at it and not destroyed
    since. *)
Definition live (dog : pointer) (h : heap) : Prop :=
  match dog with
  | nullptr => False
  | addr a => is_Some (h !! a)
  end.

(** Every [distance_] of the free store holds an [int]. *)
Definition heap_ok (h : heap) : Prop :=
  ∀ a d, h !! a = Some d → is_int (distance_ d).

(** The free store with one dog, at address 1, that has run [z]. *)
Definition one_dog (z : Z) : heap := {[ 1%positive := {| distance_ := z |} ]}.

(** The number of [dog_ctor] calls of a sequence, and the number of its
    [dog_dctor] calls on a pointer that is not null. *)
Fixpoint creates (cs : list call) : nat :=
  match cs with
  | [] => 0
  | Create :: cs => S (creates cs)
  | _ :: cs => creates cs
  end.

Fixpoint destroys (cs : list call) : nat :=
  match cs with
  | [] => 0
  | Destroy (addr _) :: cs => S (destroys cs)
  | _ :: cs => destroys cs
  end.

(** The free store with two dogs, at the addresses 1 and 2. *)
Definition two_dogs (y z : Z) : heap :=
  <[ 2%positive := {| distance_ := z |} ]> (one_dog y).

End Dog.

(** ** [code/09/send_udp_packet.cc] *)
Module Udp.

(** [char], one byte. *)
Abbreviation char := byte.

(** The open array handle of [svdpi.h], which is the simulator's and not
    part of the repository: the model takes the four entry points that
    [read_data] calls as the fields of the handle.  [svLeft h d],
    [svRight h d] and [svSize h d] are the [int] bounds and the element
    count of dimension [d]; [svGetArrElemPtr1 h i] is the element that the
    returned pointer points to, [None] standing for the null pointer that
    the interface returns for an index outside the array. *)
Record svOpenArrayHandle : Type := {
  svLeft : Z → Z;
  svRight : Z → Z;
  svSize : Z → Z;
  svGetArrElemPtr1 : Z → option char
}.

(** [std::vector<char>]: the sequence of its elements.  The capacity is not
    observable by the code and allocation is taken to succeed. *)
Abbreviation vector := (list char).

Definition emplace_back (v : vector) (c : char) : vector := v ++ [c].

(** The state that [read_data] acts on is the foreign array; the model
    records each read of it: the indices given to [svGetArrElemPtr1] whose
    element was read, in the order of the reads. *)
Abbreviation reads := (list Z).

(** [result.reserve(n)] for an [int n]: the parameter is a [size_t], to
    which a negative [n] converts as a number above [max_size()], and
    [reserve] throws [std::length_error]; from 0 to [INT_MAX] it changes
    the capacity only. *)
Definition reserve (v : vector) (n : Z) : M reads vector :=
  fun t => if bool_decide (0 <= n) then Done (v, t) else Undef.

(** [*reinterpret_cast<char*>(svGetArrElemPtr1(array, i))] *)
Definition read_elem (array : svOpenArrayHandle) (i : Z) : M reads char :=
  fun t =>
    match svGetArrElemPtr1 array i with
    | Some value => Done (value, t ++ [i])
    | None => Undef
    end.

(** [for (auto i = low; i <= high; i++) { ...; result.emplace_back( *value ); }]
    from the state in which the loop variable is [i].  [i] is an [int], so
    [i++] is [int_add i 1]; each unit of fuel pays for one evaluation of the
    loop condition. *)
Fixpoint read_loop (fuel : nat) (array : svOpenArrayHandle) (high i : Z)
    (result : vector) : M reads vector :=
  match fuel with
  | O => fun _ => OutOfFuel
  | S fuel =>
      if bool_decide (i <= high) then
        value ← read_elem array i;
        read_loop fuel array high (int_add i 1) (emplace_back result value)
      else mret result
  end.

(** [std::vector<char> read_data(svOpenArrayHandle array)] *)
Definition read_data (fuel : nat) (array : svOpenArrayHandle) : M reads vector :=
  let result : vector := [] in
  let low := svLeft array 1 in
  let high := svRight array 1 in
  let size := svSize array 1 in
  result ← reserve result size;
  read_loop fuel array high low result.

(** [int send_udp_packet(const char *ip_address, uint16_t unsigned port,
    svOpenArrayHandle data)] *)
Definition send_udp_packet (fuel : nat) (ip_address : string) (port : Z)
    (data : svOpenArrayHandle) : M reads Z :=
  byte_data ← read_data fuel data; mret 0.

(** An array as the simulator hands it over: the elements [elems], indexed
    from [left] upwards ([byte data[left:left+n-1]]). *)
Definition ascending (left : Z) (elems : list char) : svOpenArrayHandle := {|
  svLeft := fun _ => left;
  svRight := fun _ => left + Z.of_nat (length elems) - 1;
  svSize := fun _ => Z.of_nat (length elems);
  svGetArrElemPtr1 := fun i =>
    if bool_decide (left <= i) then elems !! Z.to_nat (i - left) else None
|}.

(** The bounds are [int]s and every index from the left to the right bound
    has an element. *)
Definition readable (array : svOpenArrayHandle) : Prop :=
  is_int (svLeft array 1) ∧ is_int (svRight array 1) ∧
  ∀ i, svLeft array 1 <= i <= svRight array 1 →
       is_Some (svGetArrElemPtr1 array i).

(** The scenario of the specification: [low = 0], [high = 2], the bytes
    [0x41 0x42 0x43]. *)
Definition abc : svOpenArrayHandle := ascending 0 [x41; x42; x43].

(** A dynamic array without elements: bounds [0] and [-1]. *)
Definition no_elems : svOpenArrayHandle := ascending 0 [].

(** [byte data[2147483647:2147483647]], one element at the index
    [INT_MAX]. *)
Definition top : svOpenArrayHandle := ascending INT_MAX [x41].

(** A handle that announces the bounds [0] and [2] and has elements at the
    indices 0 and 1 only: the pointer for the index 2 is null. *)
Definition holed : svOpenArrayHandle := {|
  svLeft := fun _ => 0;
  svRight := fun _ => 2;
  svSize := fun _ => 3;
  svGetArrElemPtr1 := svGetArrElemPtr1 (ascending 0 [x41; x42])
|}.

End Udp.

(** * Properties *)

(** ** [int] arithmetic *)
Section IntFacts.

Lemma int_wrap_is_int (z : Z) : is_int (int_wrap z).
Proof.
  unfold is_int, int_wrap, INT_MIN, INT_MAX.
  pose proof (Z.mod_pos_bound (z + 2 ^ 31) (2 ^ 32)). lia.
Qed.

Lemma int_wrap_id (z : Z) : is_int z → int_wrap z = z.
Proof.
  unfold is_int, int_wrap, INT_MIN, INT_MAX. intros Hz.
  rewrite Z.mod_small; lia.
Qed.

Lemma int_wrap_add_l (a b : Z) : int_wrap (int_wrap a + b) = int_wrap (a + b).
Proof.
  unfold int_wrap.
  replace ((a + 2 ^ 31) mod 2 ^ 32 - 2 ^ 31 + b + 2 ^ 31)
    with ((a + 2 ^ 31) mod 2 ^ 32 + b) by lia.
  rewrite Zplus_mod_idemp_l. f_equal. f_equal. lia.
Qed.

Lemma int_wrap_congruent (z : Z) : (int_wrap z - z) mod 2 ^ 32 = 0.
Proof.
  unfold int_wrap.
  rewrite (Z.mod_eq (z + 2 ^ 31) (2 ^ 32)) by lia.
  replace (z + 2 ^ 31 - 2 ^ 32 * ((z + 2 ^ 31) / 2 ^ 32) - 2 ^ 31 - z)
    with (- ((z + 2 ^ 31) / 2 ^ 32) * 2 ^ 32) by lia.
  apply Z_mod_mult.
Qed.

End IntFacts.

(** ** The monad *)
Section MonadFacts.
Context {S A B : Type}.

Lemma bind_Done (m : M S A) (k : A → M S B) (s s' : S) (a : A) :
  m s = Done (a, s') → (m ≫= k) s = k a s'.
Proof. intros E. unfold mbind, M_bind. by rewrite E. Qed.

Lemma bind_Undef (m : M S A) (k : A → M S B) (s : S) :
  m s = Undef → (m ≫= k) s = Undef.
Proof. intros E. unfold mbind, M_bind. by rewrite E. Qed.

Lemma bind_inv (m : M S A) (k : A → M S B) (s s2 : S) (b : B) :
  (m ≫= k) s = Done (b, s2) →
  ∃ a s1, m s = Done (a, s1) ∧ k a s1 = Done (b, s2).
Proof.
  unfold mbind, M_bind. destruct (m s) as [[a s1]| |]; [eauto | done | done].
Qed.

End MonadFacts.

(** ** [dog.cc] *)
Section DogFacts.
Import Dog.
Implicit Types (h : heap) (a b : positive) (d : Dog) (dog : pointer).

Lemma alloc_fresh h : h !! alloc h = None.
Proof. apply not_elem_of_dom. unfold alloc. apply is_fresh. Qed.

Lemma dog_ctor_eq h :
  dog_ctor h = Done (addr (alloc h), <[alloc h := Dog_new]> h).
Proof. reflexivity. Qed.

Lemma dog_run_live h a d n :
  h !! a = Some d → dog_run (addr a) n h = Done (tt, <[a := run d n]> h).
Proof.
  intros E. unfold dog_run.
  rewrite (bind_Done _ _ h h d) by (simpl; by rewrite E).
  simpl. by rewrite E.
Qed.

Lemma dog_distance_live h a d :
  h !! a = Some d → dog_distance (addr a) h = Done (distance d, h).
Proof.
  intros E. unfold dog_distance.
  by rewrite (bind_Done _ _ h h d) by (simpl; by rewrite E).
Qed.

Lemma deref_dead dog h : ¬ live dog h → deref dog h = Undef.
Proof.
  destruct dog as [|a]; simpl; [done|].
  destruct (h !! a) eqn:E; [|done]. intros []; eauto.
Qed.

Lemma dog_run_dead dog n h : ¬ live dog h → dog_run dog n h = Undef.
Proof. intros Hd. unfold dog_run. by apply bind_Undef, deref_dead. Qed.

Lemma dog_distance_dead dog h : ¬ live dog h → dog_distance dog h = Undef.
Proof. intros Hd. unfold dog_distance. by apply bind_Undef, deref_dead. Qed.

Lemma dog_dctor_live h a d :
  h !! a = Some d → dog_dctor (addr a) h = Done (tt, delete a h).
Proof. intros E. simpl. by rewrite E. Qed.

Lemma distance_foldl_run d (l : list Z) :
  is_int (distance_ d) →
  distance_ (foldl run d l) = int_wrap (distance_ d + total l).
Proof.
  revert d. induction l as [|x l IH]; intros d Hd; simpl.
  - rewrite Z.add_0_r. symmetry. by apply int_wrap_id.
  - rewrite IH by apply int_wrap_is_int. simpl. unfold int_add.
    rewrite int_wrap_add_l. f_equal. lia.
Qed.

Lemma increments_live (l : list Z) h a d :
  h !! a = Some d →
  increments (addr a) l h = Done (tt, <[a := foldl run d l]> h).
Proof.
  revert h d. induction l as [|x l IH]; intros h d E; simpl.
  - by rewrite insert_id.
  - rewrite (bind_Done _ _ _ _ _ (dog_run_live h a d x E)).
    rewrite (IH _ (run d x)) by apply lookup_insert_eq.
    by rewrite insert_insert_eq.
Qed.

Lemma session_eq (l : list Z) h :
  session l h =
  Done (int_wrap (total l), <[alloc h := foldl run Dog_new l]> h).
Proof.
  unfold session.
  rewrite (bind_Done _ _ _ _ _ (dog_ctor_eq h)).
  rewrite (bind_Done _ _ _ _ tt
             (increments_live l _ (alloc h) Dog_new (lookup_insert_eq _ _ _))).
  rewrite insert_insert_eq.
  rewrite (dog_distance_live _ (alloc h) (foldl run Dog_new l))
    by apply lookup_insert_eq.
  unfold distance. by rewrite distance_foldl_run by (simpl; by compute).
Qed.

End DogFacts.

(** *** Sequences of calls *)
Section CallFacts.
Import Dog.
Implicit Types (h : heap) (a b : positive) (d : Dog) (dog : pointer).

Lemma foldl_run_eq d (l : list Z) :
  is_int (distance_ d) →
  foldl run d l = {| distance_ := int_wrap (distance_ d + total l) |}.
Proof.
  intros Hd. rewrite <- (distance_foldl_run d l Hd).
  by destruct (foldl run d l).
Qed.

Lemma run_is_int d n : is_int (distance_ (run d n)).
Proof. apply int_wrap_is_int. Qed.

Lemma do_call_lookup (c : call) h h' a d :
  h !! a = Some d → c ≠ Destroy (addr a) →
  do_call c h = Done (tt, h') →
  h' !! a = Some (foldl run d (amounts_of a [c])).
Proof.
  intros E Hc. destruct c as [|dog|dog n|dog]; simpl.
  - intros [= <-]. rewrite lookup_insert_ne; [done|].
    intros Ha. pose proof (alloc_fresh h) as Hf. rewrite Ha in Hf. congruence.
  - destruct dog as [|b]; simpl; [by intros [= <-]|].
    destruct (h !! b) eqn:Eb; [|done]. intros [= <-].
    rewrite lookup_delete_ne; [done|]. intros ->. by apply Hc.
  - destruct dog as [|b]; simpl; [done|].
    destruct (decide (a = b)) as [<-|Hne]; simpl.
    + rewrite (dog_run_live h a d n E). intros [= <-]. apply lookup_insert_eq.
    + destruct (h !! b) as [d0|] eqn:Eb.
      * rewrite (dog_run_live h b d0 n Eb). intros [= <-].
        by rewrite lookup_insert_ne.
      * rewrite dog_run_dead; [done|]. simpl. rewrite Eb. by intros [].
  - destruct dog as [|b]; simpl; [done|].
    destruct (h !! b) as [d0|] eqn:Eb.
    + rewrite (bind_Done _ _ _ _ _ (dog_distance_live h b d0 Eb)).
      by intros [= <-].
    + rewrite bind_Undef; [done|]. apply dog_distance_dead. simpl.
      rewrite Eb. by intros [].
Qed.

Lemma amounts_of_cons a (c : call) (cs : list call) :
  amounts_of a (c :: cs) = amounts_of a [c] ++ amounts_of a cs.
Proof.
  destruct c as [|dog|[|b] n|dog]; simpl; try done.
  by destruct (decide (a = b)).
Qed.

Lemma calls_lookup (cs : list call) h h' a d :
  h !! a = Some d → Destroy (addr a) ∉ cs →
  calls cs h = Done (tt, h') →
  h' !! a = Some (foldl run d (amounts_of a cs)).
Proof.
  revert h d. induction cs as [|c cs IH]; intros h d E Hcs.
  - by intros [= <-].
  - apply not_elem_of_cons in Hcs as [Hc Hcs]. cbn [calls].
    intros ([] & h1 & E1 & E2)%bind_inv.
    rewrite amounts_of_cons, foldl_app.
    apply (IH h1); [|done|done].
    by apply (do_call_lookup c h).
Qed.

Lemma do_call_heap_ok (c : call) h h' :
  heap_ok h → do_call c h = Done (tt, h') → heap_ok h'.
Proof.
  intros Hh. destruct c as [|dog|dog n|dog]; simpl.
  - intros [= <-] a d0 [[<- <-]|[_ E]]%lookup_insert_Some; [by compute | eauto].
  - destruct dog as [|b]; simpl; [by intros [= <-]|].
    destruct (h !! b) eqn:Eb; [|done].
    intros [= <-] a d0 [_ E]%lookup_delete_Some. eauto.
  - destruct dog as [|b]; simpl; [done|].
    destruct (h !! b) as [d0|] eqn:Eb.
    + rewrite (dog_run_live h b d0 n Eb).
      intros [= <-] a d1 [[<- <-]|[_ E]]%lookup_insert_Some;
        [apply run_is_int | eauto].
    + rewrite dog_run_dead; [done|]. simpl. rewrite Eb. by intros [].
  - intros (z & h1 & E1 & [= <-])%bind_inv.
    destruct dog as [|b]; simpl; [done|]. revert E1. unfold dog_distance.
    intros (d0 & h2 & E1 & [= _ <-])%bind_inv. simpl in E1.
    destruct (h !! b); [|done]. by injection E1 as _ <-.
Qed.

(** Every free store that calls build from the empty one holds [int]s. *)
Lemma calls_heap_ok (cs : list call) h h' :
  heap_ok h → calls cs h = Done (tt, h') → heap_ok h'.
Proof.
  revert h. induction cs as [|c cs IH]; intros h Hh; simpl.
  - by intros [= <-].
  - intros ([] & h1 & E1 & E2)%bind_inv.
    apply (IH h1); [|done]. by apply (do_call_heap_ok c h).
Qed.

Lemma heap_ok_empty : heap_ok ∅.
Proof. intros a d E. by rewrite lookup_empty in E. Qed.

Lemma calls_from_empty_ok (cs : list call) h :
  calls cs ∅ = Done (tt, h) → heap_ok h.
Proof. apply calls_heap_ok, heap_ok_empty. Qed.

Lemma total_nonneg (l : list Z) : Forall (Z.le 0) l → 0 <= total l.
Proof. induction 1; simpl; lia. Qed.

End CallFacts.

(** *** The claims about the counter object *)
Section DogClaims.
Import Dog.
Implicit Types (h : heap) (a b : positive) (d : Dog) (dog : pointer).

(** C1, as the specification words it, does not hold: the two [int]
    amounts [2147483647] and [1] sum to [2147483648], and [dog_distance]
    returns [-2147483648]. *)
Lemma session_sum_overflows :
  is_int 2147483647 ∧ is_int 1 ∧
  total [2147483647; 1] = 2147483648 ∧
  session [2147483647; 1] ∅ = Done (-2147483648, one_dog (-2147483648)).
Proof. repeat split; by vm_compute. Qed.

(** C1, amended: for every sequence of amounts whose sum is an [int], a
    fresh dog that runs the amounts in turn reports their sum (and its
    object holds it). *)
Theorem session_returns_sum (amounts : list Z) h :
  is_int (total amounts) →
  session amounts h =
  Done (total amounts, <[alloc h := {| distance_ := total amounts |}]> h).
Proof.
  intros Hs. rewrite session_eq, foldl_run_eq by (by compute).
  simpl. rewrite Z.add_0_l. by rewrite (int_wrap_id _ Hs).
Qed.

(** The scenario of C1: create, run 5, run -2, distance is 3. *)
Lemma session_returns_sum_scenario :
  is_int (total [5; -2]) ∧ session [5; -2] ∅ = Done (3, one_dog 3).
Proof.
  assert (Hs : is_int (total [5; -2])) by (by vm_compute).
  split; [exact Hs | exact (session_returns_sum [5; -2] ∅ Hs)].
Defined.

(** C3: a distance asked for right after the construction is 0, and the
    object that [dog_ctor] adds to the free store, at an address that was
    free, has [distance_ = 0]. *)
Theorem distance_after_ctor h :
  h !! alloc h = None ∧
  dog_ctor h = Done (addr (alloc h), <[alloc h := {| distance_ := 0 |}]> h) ∧
  (dog ← dog_ctor; dog_distance dog) h =
    Done (0, <[alloc h := {| distance_ := 0 |}]> h).
Proof.
  split; [apply alloc_fresh|]. split; [done|].
  rewrite (bind_Done _ _ _ _ _ (dog_ctor_eq h)).
  by rewrite (dog_distance_live _ (alloc h) Dog_new) by apply lookup_insert_eq.
Qed.

(** C6, as the specification words it, does not hold: after [Create] and
    [Increment 5] the accumulator is 5, and [Increment (-2)], the step of
    the specification's own scenario, brings it down to 3. *)
Lemma accumulator_decreases :
  calls [Create; Increment (addr 1) 5] ∅ = Done (tt, one_dog 5) ∧
  calls [Increment (addr 1) (-2)] (one_dog 5) = Done (tt, one_dog 3) ∧
  one_dog 5 !! 1%positive = Some {| distance_ := 5 |} ∧
  one_dog 3 !! 1%positive = Some {| distance_ := 3 |} ∧
  3 < 5.
Proof. repeat split; by vm_compute. Qed.

(** C6, amended: [dog_ctor] sets the accumulator to zero, and over every
    sequence of the four operations that does not destroy the object the
    accumulator changes by the increments on its handle only: it keeps its
    value when the sequence has no such increment, and it does not decrease
    when every such increment is non-negative and their sum stays within
    [INT_MAX]. *)
Theorem accumulator_changes_by_increments (cs : list call) h h' a d :
  h !! a = Some d → is_int (distance_ d) →
  Destroy (addr a) ∉ cs →
  calls cs h = Done (tt, h') →
  distance_ Dog_new = 0 ∧
  ∃ d', h' !! a = Some d' ∧
        distance_ d' = int_wrap (distance_ d + total (amounts_of a cs)) ∧
        (amounts_of a cs = [] → d' = d) ∧
        (Forall (Z.le 0) (amounts_of a cs) →
         distance_ d + total (amounts_of a cs) <= INT_MAX →
         distance_ d <= distance_ d').
Proof.
  intros E Hd Hcs Hrun. split; [done|].
  exists (foldl run d (amounts_of a cs)).
  split; [by apply (calls_lookup cs h)|].
  split; [by apply distance_foldl_run|].
  split; [by intros ->|].
  intros Hpos Hmax. rewrite distance_foldl_run by done.
  apply total_nonneg in Hpos.
  rewrite int_wrap_id; [lia|]. unfold is_int in *. lia.
Qed.

Lemma accumulator_changes_by_increments_example :
  calls [Create; Increment (addr 1) 4; Query (addr 2); Increment (addr 2) (-9);
         Destroy (addr 2); Query (addr 1)] (one_dog 5) = Done (tt, one_dog 9) ∧
  distance_ Dog_new = 0 ∧
  ∃ d', one_dog 9 !! 1%positive = Some d' ∧
        distance_ d' = 9 ∧
        (4 :: [] = [] → d' = {| distance_ := 5 |}) ∧
        (Forall (Z.le 0) [4] → 5 + 4 <= INT_MAX → 5 <= distance_ d').
Proof.
  assert (Hrun : calls [Create; Increment (addr 1) 4; Query (addr 2);
                        Increment (addr 2) (-9); Destroy (addr 2);
                        Query (addr 1)] (one_dog 5) = Done (tt, one_dog 9))
    by (by vm_compute).
  split; [exact Hrun|].
  refine (accumulator_changes_by_increments _ (one_dog 5) (one_dog 9) 1
            {| distance_ := 5 |} _ _ _ Hrun).
  - by vm_compute.
  - by vm_compute.
  - intros Hin. repeat (apply elem_of_cons in Hin as [Hin|Hin]; [done|]).
    by apply elem_of_nil in Hin.
Defined.

(** C7: on a live handle [dog_distance] returns the accumulator and leaves
    the free store as it was; [dog_run] returns nothing and replaces the
    accumulator of that object by the [int] sum of the accumulator and the
    amount (their sum in [Z] when that is an [int]); no other object
    changes. *)
Theorem distance_pure_run_frame h a d (amount : Z) :
  h !! a = Some d →
  dog_distance (addr a) h = Done (distance_ d, h) ∧
  (∃ h', dog_run (addr a) amount h = Done (tt, h') ∧
         h' !! a = Some {| distance_ := int_add (distance_ d) amount |} ∧
         (∀ b, b ≠ a → h' !! b = h !! b) ∧
         dom h' = dom h) ∧
  (is_int (distance_ d + amount) →
   int_add (distance_ d) amount = distance_ d + amount).
Proof.
  intros E. split; [by apply dog_distance_live|]. split.
  - exists (<[a := run d amount]> h). split; [by apply dog_run_live|].
    split; [apply lookup_insert_eq|].
    split; [intros b Hb; by apply lookup_insert_ne|].
    apply dom_insert_lookup_L. by exists d.
  - apply int_wrap_id.
Qed.

Lemma distance_pure_run_frame_example :
  dog_distance (addr 1) (one_dog 5) = Done (5, one_dog 5) ∧
  (∃ h', dog_run (addr 1) (-2) (one_dog 5) = Done (tt, h') ∧
         h' !! 1%positive = Some {| distance_ := int_add 5 (-2) |} ∧
         (∀ b, b ≠ 1%positive → h' !! b = one_dog 5 !! b) ∧
         dom h' = dom (one_dog 5)) ∧
  (is_int (5 + -2) → int_add 5 (-2) = 5 + -2).
Proof.
  apply (distance_pure_run_frame (one_dog 5) 1 {| distance_ := 5 |} (-2)).
  reflexivity.
Defined.

(** C8, as the specification words it, does not hold for [dog_dctor]: the
    null pointer is not a live handle, and [delete] of it is defined (it
    does nothing). *)
Lemma dctor_null_is_defined :
  ¬ live nullptr ∅ ∧ dog_dctor nullptr ∅ = Done (tt, ∅).
Proof. split; [by intros [] | reflexivity]. Qed.

(** C8, amended: on a handle that is not live, [dog_run] and
    [dog_distance] are undefined, and so is [dog_dctor] unless the handle
    is the null pointer, for which it does nothing; no entry point answers
    with an error of its own. *)
Theorem dead_handle_is_undefined dog h (amount : Z) :
  ¬ live dog h →
  dog_run dog amount h = Undef ∧
  dog_distance dog h = Undef ∧
  dog_dctor dog h = match dog with
                    | nullptr => Done (tt, h)
                    | addr _ => Undef
                    end.
Proof.
  intros Hd. split; [by apply dog_run_dead|].
  split; [by apply dog_distance_dead|].
  destruct dog as [|a]; simpl; [done|].
  destruct (h !! a) eqn:E; [|done]. destruct Hd. simpl. eauto.
Qed.

(** A handle that was created and destroyed: every further call on it,
    a second [dog_dctor] included, is undefined. *)
Lemma dead_handle_is_undefined_destroyed :
  calls [Create; Destroy (addr 1)] ∅ = Done (tt, ∅) ∧
  ¬ live (addr 1) ∅ ∧
  dog_run (addr 1) 7 ∅ = Undef ∧
  dog_distance (addr 1) ∅ = Undef ∧
  dog_dctor (addr 1) ∅ = Undef.
Proof.
  assert (Hd : ¬ live (addr 1) ∅).
  { simpl. rewrite lookup_empty. by intros [? ?]. }
  split; [by vm_compute|]. split; [exact Hd|].
  exact (dead_handle_is_undefined (addr 1) ∅ 7 Hd).
Defined.

(** After [dog_dctor] the handle is not live any more. *)
Lemma dog_dctor_kills h a d :
  h !! a = Some d →
  ∃ h', dog_dctor (addr a) h = Done (tt, h') ∧ ¬ live (addr a) h'.
Proof.
  intros E. exists (delete a h). split; [by apply (dog_dctor_live h a d)|].
  simpl. rewrite lookup_delete_eq. by intros [? ?].
Qed.

(** C9: on a live handle whose accumulator is an [int], two increments
    give the same free store in either order, namely the one in which the
    accumulator is the [int] sum of the three numbers; an increment by 0
    leaves the free store as it is. *)
Theorem run_commutes_and_zero h a d (x y : Z) :
  h !! a = Some d → is_int (distance_ d) →
  (dog_run (addr a) x ;; dog_run (addr a) y) h =
    (dog_run (addr a) y ;; dog_run (addr a) x) h ∧
  (dog_run (addr a) x ;; dog_run (addr a) y) h =
    Done (tt, <[a := {| distance_ := int_wrap (distance_ d + x + y) |}]> h) ∧
  dog_run (addr a) 0 h = Done (tt, h).
Proof.
  intros E Hd.
  assert (Hxy : ∀ u v, (dog_run (addr a) u ;; dog_run (addr a) v) h =
    Done (tt, <[a := {| distance_ := int_wrap (distance_ d + u + v) |}]> h)).
  { intros u v.
    rewrite (bind_Done _ _ _ _ _ (dog_run_live h a d u E)).
    rewrite (dog_run_live _ a (run d u) v) by apply lookup_insert_eq.
    rewrite insert_insert_eq. unfold run, int_add. simpl.
    by rewrite int_wrap_add_l. }
  split; [|split].
  - rewrite !Hxy.
    by replace (distance_ d + y + x) with (distance_ d + x + y) by lia.
  - apply Hxy.
  - rewrite (dog_run_live h a d 0 E). unfold run, int_add.
    rewrite Z.add_0_r, (int_wrap_id _ Hd).
    rewrite insert_id; [done|]. by destruct d.
Qed.

Lemma run_commutes_and_zero_example :
  (dog_run (addr 1) 2147483647 ;; dog_run (addr 1) (-2)) (one_dog 5) =
    (dog_run (addr 1) (-2) ;; dog_run (addr 1) 2147483647) (one_dog 5) ∧
  (dog_run (addr 1) 2147483647 ;; dog_run (addr 1) (-2)) (one_dog 5) =
    Done (tt, <[1%positive :=
                 {| distance_ := int_wrap (5 + 2147483647 + -2) |}]> (one_dog 5)) ∧
  dog_run (addr 1) 0 (one_dog 5) = Done (tt, one_dog 5).
Proof.
  apply (run_commutes_and_zero (one_dog 5) 1 {| distance_ := 5 |}
           2147483647 (-2)).
  - reflexivity.
  - by vm_compute.
Defined.

(** C10: the accumulator is a 32-bit two's complement integer.  Each
    [run] stores an [int] that is congruent modulo [2^32] to the sum of the
    accumulator and the amount, and the distance that a fresh dog reports
    after a sequence of amounts is the [int] congruent modulo [2^32] to
    their sum, which is not the sum itself in general. *)
Theorem distance_is_wrapped_sum (amounts : list Z) h :
  (∀ d (amount : Z),
     is_int (distance_ (run d amount)) ∧
     (distance_ (run d amount) - (distance_ d + amount)) mod 2 ^ 32 = 0) ∧
  session amounts h =
    Done (int_wrap (total amounts),
          <[alloc h := {| distance_ := int_wrap (total amounts) |}]> h) ∧
  is_int (int_wrap (total amounts)) ∧
  (int_wrap (total amounts) - total amounts) mod 2 ^ 32 = 0 ∧
  int_wrap (total [2147483647; 1]) ≠ total [2147483647; 1].
Proof.
  split; [|split; [|split; [|split]]].
  - intros d amount. split; [apply run_is_int|]. apply int_wrap_congruent.
  - rewrite session_eq, foldl_run_eq by (by compute).
    simpl. by rewrite Z.add_0_l.
  - apply int_wrap_is_int.
  - apply int_wrap_congruent.
  - by vm_compute.
Qed.

End DogClaims.

(** ** [send_udp_packet.cc] *)
Section UdpFacts.
Import Udp.
Implicit Types (array data : svOpenArrayHandle) (t : reads) (result : vector).

Lemma int_succ (i : Z) : INT_MIN <= i < INT_MAX → int_add i 1 = i + 1.
Proof. intros Hi. apply int_wrap_id. unfold is_int. lia. Qed.

Lemma read_elem_Some array i (value : char) t :
  svGetArrElemPtr1 array i = Some value →
  read_elem array i t = Done (value, t ++ [i]).
Proof. intros E. unfold read_elem. by rewrite E. Qed.

Lemma read_loop_exit fuel array high i result t :
  high < i → read_loop (S fuel) array high i result t = Done (result, t).
Proof. intros Hi. simpl. by rewrite bool_decide_eq_false_2 by lia. Qed.

Lemma read_loop_step fuel array high i result t (value : char) :
  i <= high → svGetArrElemPtr1 array i = Some value →
  read_loop (S fuel) array high i result t =
  read_loop fuel array high (int_add i 1) (emplace_back result value)
    (t ++ [i]).
Proof.
  intros Hi E. simpl. rewrite bool_decide_eq_true_2 by lia.
  by rewrite (bind_Done _ _ _ _ _ (read_elem_Some array i value t E)).
Qed.

Lemma read_loop_null fuel array high i result t :
  i <= high → svGetArrElemPtr1 array i = None →
  read_loop (S fuel) array high i result t = Undef.
Proof.
  intros Hi E. simpl. rewrite bool_decide_eq_true_2 by lia.
  apply bind_Undef. unfold read_elem. by rewrite E.
Qed.

Lemma read_data_reserved fuel array t :
  0 <= svSize array 1 →
  read_data fuel array t =
  read_loop fuel array (svRight array 1) (svLeft array 1) [] t.
Proof.
  intros Hsz. unfold read_data.
  apply (bind_Done (reserve [] (svSize array 1))). unfold reserve.
  by rewrite bool_decide_eq_true_2.
Qed.

Lemma read_data_length_error fuel array t :
  svSize array 1 < 0 → read_data fuel array t = Undef.
Proof.
  intros Hsz. unfold read_data. apply bind_Undef. unfold reserve.
  by rewrite bool_decide_eq_false_2 by lia.
Qed.

(** Below [INT_MAX] the loop reads the indices from [i] to [high] in
    ascending order, and appends their elements in that order. *)
Lemma read_loop_copies fuel array high i result t :
  INT_MIN <= i → high < INT_MAX →
  (∀ j, i <= j <= high → is_Some (svGetArrElemPtr1 array j)) →
  (Z.to_nat (high + 1 - i) < fuel)%nat →
  ∃ vs, read_loop fuel array high i result t =
          Done (result ++ vs, t ++ seqZ i (high + 1 - i)) ∧
        Forall2 (λ j v, svGetArrElemPtr1 array j = Some v)
                (seqZ i (high + 1 - i)) vs.
Proof.
  revert i result t.
  induction fuel as [|fuel IH]; intros i result t Hlo Hhi Hrd Hfuel; [lia|].
  destruct (decide (i <= high)) as [Hi|Hi].
  - destruct (Hrd i ltac:(lia)) as [value E].
    rewrite (read_loop_step fuel array high i result t value Hi E).
    rewrite int_succ by lia.
    destruct (IH (i + 1) (emplace_back result value) (t ++ [i]))
      as (vs & Hrun & Hvs); [lia | lia | intros j Hj; apply Hrd; lia | lia |].
    exists (value :: vs).
    rewrite (seqZ_cons i (high + 1 - i)) by lia.
    replace (Z.succ i) with (i + 1) by lia.
    replace (Z.pred (high + 1 - i)) with (high + 1 - (i + 1)) by lia.
    split; [|by constructor].
    rewrite Hrun. unfold emplace_back. by rewrite <- !app_assoc.
  - exists []. rewrite read_loop_exit by lia.
    rewrite seqZ_nil by lia. by rewrite !app_nil_r.
Qed.

(** What [read_data] does on every array whose element count is not
    negative and whose right bound is below [INT_MAX]: the buffer has
    [max 0 (high - low + 1)] elements, the element at position [i - low] is
    the array's element at index [i], and the reads are those of [low],
    [low + 1], ..., [high], in this order. *)
Lemma read_data_copies fuel array t :
  readable array → 0 <= svSize array 1 → svRight array 1 < INT_MAX →
  (Z.to_nat (svRight array 1 + 1 - svLeft array 1) < fuel)%nat →
  ∃ buf, read_data fuel array t =
           Done (buf, t ++ seqZ (svLeft array 1)
                               (svRight array 1 + 1 - svLeft array 1)) ∧
         Z.of_nat (length buf) =
           Z.max 0 (svRight array 1 - svLeft array 1 + 1) ∧
         ∀ i, svLeft array 1 <= i <= svRight array 1 →
              buf !! Z.to_nat (i - svLeft array 1) = svGetArrElemPtr1 array i.
Proof.
  intros ([Hlo _] & _ & Hrd) Hsz Hhi Hfuel. rewrite read_data_reserved by done.
  destruct (read_loop_copies fuel array (svRight array 1) (svLeft array 1)
              [] t Hlo Hhi Hrd Hfuel) as (buf & Hrun & Hbuf).
  exists buf. split; [done|]. split.
  - rewrite <- (Forall2_length _ _ _ Hbuf), length_seqZ. lia.
  - intros i Hi.
    assert (Hi' : seqZ (svLeft array 1)
                    (svRight array 1 + 1 - svLeft array 1)
                  !! Z.to_nat (i - svLeft array 1) = Some i).
    { rewrite lookup_seqZ. split; lia. }
    destruct (Forall2_lookup_l _ _ _ _ _ Hbuf Hi') as (v & Hv & ->).
    done.
Qed.

Lemma send_udp_packet_Done fuel (ip : string) (port : Z) data t buf t' :
  read_data fuel data t = Done (buf, t') →
  send_udp_packet fuel ip port data t = Done (0, t').
Proof. intros E. unfold send_udp_packet. by rewrite (bind_Done _ _ _ _ _ E). Qed.

(** No path of [send_udp_packet] returns a status other than 0. *)
Lemma send_udp_packet_status fuel (ip : string) (port : Z) data t status t' :
  send_udp_packet fuel ip port data t = Done (status, t') → status = 0.
Proof.
  unfold send_udp_packet. intros (buf & t1 & _ & E)%bind_inv.
  by injection E as <- _.
Qed.

(** It returns 0 for every array whose element count is not negative and
    whose right bound is below [INT_MAX]. *)
Lemma send_udp_packet_returns fuel (ip : string) (port : Z) data t :
  readable data → 0 <= svSize data 1 → svRight data 1 < INT_MAX →
  (Z.to_nat (svRight data 1 + 1 - svLeft data 1) < fuel)%nat →
  ∃ t', send_udp_packet fuel ip port data t = Done (0, t').
Proof.
  intros Hd Hsz Hhi Hfuel.
  destruct (read_data_copies fuel data t Hd Hsz Hhi Hfuel) as (buf & E & _).
  eexists. by apply (send_udp_packet_Done _ _ _ _ _ buf).
Qed.

Lemma ascending_readable (left : Z) (elems : list char) :
  is_int left → is_int (left + Z.of_nat (length elems) - 1) →
  readable (ascending left elems).
Proof.
  intros Hl Hr. split; [done|]. split; [done|]. simpl. intros i Hi.
  rewrite bool_decide_eq_true_2 by lia.
  apply lookup_lt_is_Some. lia.
Qed.

(** The scenario of the specification. *)
Example read_data_abc :
  read_data 4 abc [] = Done ([x41; x42; x43], [0; 1; 2]) ∧
  send_udp_packet 4 "192.168.0.1" 8080 abc [] = Done (0, [0; 1; 2]).
Proof. split; reflexivity. Qed.

End UdpFacts.

(** *** The claims about the marshaller *)
Section UdpClaims.
Import Udp.
Implicit Types (array data : svOpenArrayHandle) (t : reads) (result : vector).

(** With the right bound at [INT_MAX] the loop condition holds for every
    [int], so the loop has no exit. *)
Lemma read_loop_INT_MAX fuel array i result t (r : vector * reads) :
  is_int i → read_loop fuel array INT_MAX i result t ≠ Done r.
Proof.
  revert i result t. induction fuel as [|fuel IH]; intros i result t Hi; [done|].
  destruct (svGetArrElemPtr1 array i) as [value|] eqn:E.
  - rewrite (read_loop_step fuel array INT_MAX i result t value (proj2 Hi) E).
    apply IH, int_wrap_is_int.
  - by rewrite (read_loop_null fuel array INT_MAX i result t (proj2 Hi) E).
Qed.

Lemma read_data_INT_MAX fuel array t (r : vector * reads) :
  is_int (svLeft array 1) → svRight array 1 = INT_MAX →
  read_data fuel array t ≠ Done r.
Proof.
  intros Hlo Hhi. destruct (decide (0 <= svSize array 1)) as [Hsz|Hsz].
  - rewrite read_data_reserved, Hhi by done. by apply read_loop_INT_MAX.
  - by rewrite read_data_length_error by lia.
Qed.

Lemma read_data_top fuel t : read_data (S (S fuel)) top t = Undef.
Proof.
  rewrite read_data_reserved by (by vm_compute).
  rewrite (read_loop_step _ top _ _ _ _ x41); [|by vm_compute|reflexivity].
  apply read_loop_null; [by vm_compute|reflexivity].
Qed.

(** C2, at the array [byte data[2147483647:2147483647]] (one element, the
    bounds are [int]s and the element is readable): the claim asks for the
    buffer that holds this one element; [read_data] reads it, steps the
    index past [INT_MAX], which brings it to [INT_MIN], and reads through
    the null pointer that it gets for that index.  It returns no buffer,
    whatever the fuel. *)
Theorem read_data_fails_at_INT_MAX :
  readable top ∧
  svLeft top 1 = 2147483647 ∧ svRight top 1 = 2147483647 ∧
  svGetArrElemPtr1 top 2147483647 = Some x41 ∧
  (∀ fuel t, read_data (S (S fuel)) top t = Undef) ∧
  (∀ fuel t r, read_data fuel top t ≠ Done r).
Proof.
  split; [by apply ascending_readable|].
  do 3 (split; [reflexivity|]).
  split; [apply read_data_top|].
  intros fuel t r. apply read_data_INT_MAX; [by vm_compute | reflexivity].
Qed.

(** C4: when the left bound is above the right bound (and the element
    count that the handle reports is not negative, as a count is),
    [read_data] returns the empty buffer without a single read of the array
    (whatever [svGetArrElemPtr1] would answer), and [send_udp_packet]
    returns 0. *)
Theorem empty_range_reads_nothing fuel (ip_address : string) (port : Z) data t :
  0 <= svSize data 1 →
  svRight data 1 < svLeft data 1 →
  read_data (S fuel) data t = Done ([], t) ∧
  send_udp_packet (S fuel) ip_address port data t = Done (0, t).
Proof.
  intros Hsz Hlt.
  assert (E : read_data (S fuel) data t = Done ([], t))
    by (rewrite read_data_reserved by done; by apply read_loop_exit).
  split; [exact E|]. by apply (send_udp_packet_Done _ _ _ _ _ []).
Qed.

Lemma empty_range_reads_nothing_example :
  0 <= svSize no_elems 1 ∧
  svRight no_elems 1 < svLeft no_elems 1 ∧
  (∀ i, svGetArrElemPtr1 no_elems i = None) ∧
  read_data 1 no_elems [] = Done ([], []) ∧
  send_udp_packet 1 "127.0.0.1" 5000 no_elems [] = Done (0, []).
Proof.
  assert (Hsz : 0 <= svSize no_elems 1) by (by vm_compute).
  assert (Hlt : svRight no_elems 1 < svLeft no_elems 1) by (by vm_compute).
  split; [exact Hsz|]. split; [exact Hlt|]. split.
  - intros i. simpl. by destruct (bool_decide (0 <= i)).
  - exact (empty_range_reads_nothing 0 "127.0.0.1" 5000 no_elems [] Hsz Hlt).
Defined.

(** C5, at the same array as C2: [send_udp_packet] does not return 0 there,
    it does not return at all, because [read_data] does not. *)
Theorem send_udp_packet_fails_at_INT_MAX :
  readable top ∧
  (∀ fuel (ip_address : string) (port : Z) t,
     send_udp_packet (S (S fuel)) ip_address port top t = Undef) ∧
  (∀ fuel (ip_address : string) (port : Z) t r,
     send_udp_packet fuel ip_address port top t ≠ Done r).
Proof.
  split; [by apply ascending_readable|]. split.
  - intros fuel ip port t. unfold send_udp_packet.
    apply bind_Undef, read_data_top.
  - intros fuel ip port t [status t'] (buf & t1 & E & _)%bind_inv.
    revert E. apply read_data_INT_MAX; [by vm_compute | reflexivity].
Qed.

End UdpClaims.

(** * Further properties of [dog.cc] *)
Section DogLifecycle.
Import Dog.
Implicit Types (h : heap) (a b : positive) (d : Dog) (dog : pointer).

Lemma bind_assoc_at {S A B C} (m : M S A) (k : A → M S B) (k' : B → M S C)
    (s : S) :
  ((m ≫= k) ≫= k') s = (m ≫= (λ x, k x ≫= k')) s.
Proof. unfold mbind, M_bind. by destruct (m s) as [[x s1]| |]. Qed.

(** [dog_ctor] then [dog_dctor] on the handle it returned gives the free
    store back as it was: the object is released, nothing else changes. *)
Theorem ctor_dctor_restores h :
  (dog ← dog_ctor; dog_dctor dog) h = Done (tt, h).
Proof.
  rewrite (bind_Done _ _ _ _ _ (dog_ctor_eq h)). simpl.
  rewrite lookup_insert_eq. by rewrite delete_insert_id by apply alloc_fresh.
Qed.

(** [dog_ctor] always returns, with a handle that is not null and was not
    live; afterwards the handle is live with distance 0, and every object
    that was live is still there with the accumulator it had, at a handle
    different from the new one. *)
Theorem ctor_fresh_and_frame h :
  ∃ a h', dog_ctor h = Done (addr a, h') ∧
          ¬ live (addr a) h ∧
          dog_distance (addr a) h' = Done (0, h') ∧
          ∀ b d, h !! b = Some d → b ≠ a ∧ h' !! b = Some d.
Proof.
  exists (alloc h), (<[alloc h := Dog_new]> h).
  pose proof (alloc_fresh h) as Hf.
  split; [done|]. split; [|split].
  - simpl. rewrite Hf. by intros [? ?].
  - by rewrite (dog_distance_live _ (alloc h) Dog_new) by apply lookup_insert_eq.
  - intros b d E. assert (b ≠ alloc h) by congruence.
    split; [done|]. by rewrite lookup_insert_ne.
Qed.

(** [dog_dctor] on a live handle returns, removes that object and no
    other, and leaves the handle dead: every later call on it, a second
    [dog_dctor] included, is undefined. *)
Theorem dctor_releases h a d :
  h !! a = Some d →
  ∃ h', dog_dctor (addr a) h = Done (tt, h') ∧
        h' !! a = None ∧
        (∀ b, b ≠ a → h' !! b = h !! b) ∧
        (∀ amount : Z, dog_run (addr a) amount h' = Undef) ∧
        dog_distance (addr a) h' = Undef ∧
        dog_dctor (addr a) h' = Undef.
Proof.
  intros E. exists (delete a h).
  assert (Hdead : ¬ live (addr a) (delete a h)).
  { simpl. rewrite lookup_delete_eq. by intros [? ?]. }
  split; [by apply (dog_dctor_live h a d)|].
  split; [apply lookup_delete_eq|].
  split; [intros b Hb; by apply lookup_delete_ne|].
  split; [intros amount; by apply dog_run_dead|].
  split; [by apply dog_distance_dead|].
  simpl. by rewrite lookup_delete_eq.
Qed.

Lemma dctor_releases_example :
  one_dog 5 !! 1%positive = Some {| distance_ := 5 |} ∧
  ∃ h', dog_dctor (addr 1) (one_dog 5) = Done (tt, h') ∧
        h' !! 1%positive = None ∧
        (∀ b, b ≠ 1%positive → h' !! b = one_dog 5 !! b) ∧
        (∀ amount : Z, dog_run (addr 1) amount h' = Undef) ∧
        dog_distance (addr 1) h' = Undef ∧
        dog_dctor (addr 1) h' = Undef.
Proof.
  assert (E : one_dog 5 !! 1%positive = Some {| distance_ := 5 |})
    by reflexivity.
  split; [exact E | exact (dctor_releases (one_dog 5) 1 _ E)].
Defined.

(** Runs of two different live dogs do not interfere: in either order they
    give the same free store. *)
Theorem runs_of_two_dogs_commute h a b d e (x y : Z) :
  a ≠ b → h !! a = Some d → h !! b = Some e →
  (dog_run (addr a) x ;; dog_run (addr b) y) h =
    (dog_run (addr b) y ;; dog_run (addr a) x) h ∧
  (dog_run (addr a) x ;; dog_run (addr b) y) h =
    Done (tt, <[b := run e y]> (<[a := run d x]> h)).
Proof.
  intros Hab Ea Eb.
  assert (L : (dog_run (addr a) x ;; dog_run (addr b) y) h =
              Done (tt, <[b := run e y]> (<[a := run d x]> h))).
  { rewrite (bind_Done _ _ _ _ _ (dog_run_live h a d x Ea)).
    apply dog_run_live. by rewrite lookup_insert_ne. }
  split; [|exact L]. rewrite L.
  rewrite (bind_Done _ _ _ _ _ (dog_run_live h b e y Eb)).
  rewrite (dog_run_live _ a d x) by (by rewrite lookup_insert_ne).
  by rewrite insert_insert_ne.
Qed.

Lemma runs_of_two_dogs_commute_example :
  (dog_run (addr 1) 4 ;; dog_run (addr 2) (-9)) (two_dogs 5 7) =
    (dog_run (addr 2) (-9) ;; dog_run (addr 1) 4) (two_dogs 5 7) ∧
  (dog_run (addr 1) 4 ;; dog_run (addr 2) (-9)) (two_dogs 5 7) =
    Done (tt, <[2%positive := run {| distance_ := 7 |} (-9)]>
                (<[1%positive := run {| distance_ := 5 |} 4]> (two_dogs 5 7))).
Proof.
  apply (runs_of_two_dogs_commute (two_dogs 5 7) 1 2).
  - discriminate.
  - reflexivity.
  - reflexivity.
Defined.

Lemma increments_app dog (l1 l2 : list Z) h :
  increments dog (l1 ++ l2) h = (increments dog l1 ;; increments dog l2) h.
Proof.
  revert h. induction l1 as [|x l1 IH]; intros h; simpl; [done|].
  rewrite bind_assoc_at.
  destruct (dog_run dog x h) as [[[] h1]| |] eqn:E.
  - rewrite !(bind_Done _ _ _ _ _ E). apply IH.
  - unfold mbind, M_bind. by rewrite E.
  - unfold mbind, M_bind. by rewrite E.
Qed.

(** A sequence of runs of a live dog with an [int] accumulator amounts to
    one run by the [int] that the sum of the amounts wraps to; and running
    a concatenation is running its two parts in turn. *)
Theorem increments_as_one_run h a d (l l' : list Z) :
  h !! a = Some d → is_int (distance_ d) →
  increments (addr a) l h = dog_run (addr a) (int_wrap (total l)) h ∧
  increments (addr a) (l ++ l') h =
    (increments (addr a) l ;; increments (addr a) l') h.
Proof.
  intros E Hd. split; [|apply increments_app].
  rewrite (increments_live l h a d E), (dog_run_live h a d _ E).
  rewrite (foldl_run_eq d l Hd). unfold run, int_add.
  rewrite (Z.add_comm (distance_ d) (int_wrap (total l))), int_wrap_add_l.
  by rewrite (Z.add_comm (total l)).
Qed.

Lemma increments_as_one_run_example :
  increments (addr 1) [2147483647; 2147483647; 3] (one_dog 5) =
    dog_run (addr 1) (int_wrap (total [2147483647; 2147483647; 3])) (one_dog 5) ∧
  increments (addr 1) ([2147483647; 2147483647; 3] ++ [-8]) (one_dog 5) =
    (increments (addr 1) [2147483647; 2147483647; 3] ;;
     increments (addr 1) [-8]) (one_dog 5).
Proof.
  apply (increments_as_one_run (one_dog 5) 1 {| distance_ := 5 |}).
  - reflexivity.
  - by vm_compute.
Defined.

(** A run by [x] followed by a run by the [int] negation of [x] gives the
    free store back, overflow or not. *)
Theorem run_then_back h a d (x : Z) :
  h !! a = Some d → is_int (distance_ d) →
  (dog_run (addr a) x ;; dog_run (addr a) (int_wrap (- x))) h = Done (tt, h).
Proof.
  intros E Hd.
  rewrite (bind_Done _ _ _ _ _ (dog_run_live h a d x E)).
  rewrite (dog_run_live _ a (run d x)) by apply lookup_insert_eq.
  rewrite insert_insert_eq. unfold run, int_add. simpl.
  rewrite int_wrap_add_l.
  replace (distance_ d + x + int_wrap (- x))
    with (int_wrap (- x) + (distance_ d + x)) by lia.
  rewrite int_wrap_add_l.
  replace (- x + (distance_ d + x)) with (distance_ d) by lia.
  rewrite (int_wrap_id _ Hd). rewrite insert_id; [done|]. by destruct d.
Qed.

Lemma run_then_back_example :
  (dog_run (addr 1) 2147483647 ;; dog_run (addr 1) (int_wrap (- 2147483647)))
    (one_dog 5) = Done (tt, one_dog 5).
Proof.
  apply (run_then_back (one_dog 5) 1 {| distance_ := 5 |}).
  - reflexivity.
  - by vm_compute.
Defined.

End DogLifecycle.

(** * Further properties of call sequences *)
Section DogSequences.
Import Dog.
Implicit Types (h : heap) (a b : positive) (d : Dog) (dog : pointer).

(** Whatever the calls and their amounts, a free store built from the empty
    one holds [int]s only: [dog_distance] on a live handle returns, it
    returns a value from [INT_MIN] to [INT_MAX], and it leaves the free
    store as it is. *)
Theorem distance_in_int_range (cs : list call) h a d :
  calls cs ∅ = Done (tt, h) → h !! a = Some d →
  dog_distance (addr a) h = Done (distance_ d, h) ∧
  INT_MIN <= distance_ d <= INT_MAX.
Proof.
  intros Hrun E. split; [by apply dog_distance_live|].
  by apply (calls_heap_ok cs ∅ h heap_ok_empty Hrun a d).
Qed.

Lemma distance_in_int_range_example :
  calls [Create; Increment (addr 1) 2147483647; Increment (addr 1) 2147483647]
    ∅ = Done (tt, one_dog (-2)) ∧
  dog_distance (addr 1) (one_dog (-2)) = Done (-2, one_dog (-2)) ∧
  INT_MIN <= -2 <= INT_MAX.
Proof.
  assert (Hrun : calls [Create; Increment (addr 1) 2147483647;
                        Increment (addr 1) 2147483647] ∅
                 = Done (tt, one_dog (-2))) by (by vm_compute).
  split; [exact Hrun|].
  refine (distance_in_int_range _ (one_dog (-2)) 1 {| distance_ := -2 |}
            Hrun _).
  reflexivity.
Defined.

Lemma do_call_size (c : call) h h' :
  do_call c h = Done (tt, h') →
  (size h' + destroys [c] = size h + creates [c])%nat.
Proof.
  destruct c as [|dog|dog n|dog]; simpl.
  - intros [= <-]. rewrite map_size_insert_None by apply alloc_fresh. lia.
  - destruct dog as [|b]; simpl; [intros [= <-]; lia|].
    destruct (h !! b) as [d0|] eqn:Eb; [|done]. intros [= <-].
    assert (Hpos : (0 < size h)%nat).
    { destruct (decide (size h = 0%nat)) as [H0|]; [|lia].
      apply map_size_empty_inv in H0. subst h. by rewrite lookup_empty in Eb. }
    rewrite map_size_delete_Some by eauto. lia.
  - destruct dog as [|b]; simpl; [done|].
    destruct (h !! b) as [d0|] eqn:Eb.
    + rewrite (dog_run_live h b d0 n Eb). intros [= <-].
      rewrite map_size_insert_Some by eauto. lia.
    + rewrite dog_run_dead; [done|]. simpl. rewrite Eb. by intros [].
  - intros (z & h1 & E1 & [= <-])%bind_inv.
    destruct dog as [|b]; [done|]. revert E1. unfold dog_distance.
    intros (d0 & h2 & E1 & [= _ <-])%bind_inv. simpl in E1.
    destruct (h !! b); [|done]. injection E1 as _ <-. lia.
Qed.

Lemma creates_cons (c : call) (cs : list call) :
  creates (c :: cs) = (creates [c] + creates cs)%nat.
Proof. by destruct c. Qed.

Lemma destroys_cons (c : call) (cs : list call) :
  destroys (c :: cs) = (destroys [c] + destroys cs)%nat.
Proof. by destruct c as [|[|b]| |]. Qed.

(** Objects are created by [dog_ctor] and released by [dog_dctor] only,
    one at a time: over every sequence of calls that returns, the number of
    live objects grows by the number of [dog_ctor] calls and shrinks by the
    number of [dog_dctor] calls on a non-null handle. *)
Theorem live_objects_balance (cs : list call) h h' :
  calls cs h = Done (tt, h') →
  (size h' + destroys cs = size h + creates cs)%nat.
Proof.
  revert h. induction cs as [|c cs IH]; intros h.
  - intros [= <-]. simpl. lia.
  - cbn [calls]. intros ([] & h1 & E1 & E2)%bind_inv.
    apply do_call_size in E1. apply IH in E2.
    rewrite creates_cons, destroys_cons. lia.
Qed.

Lemma live_objects_balance_example :
  calls [Create; Create; Increment (addr 2) 7; Destroy nullptr;
         Destroy (addr 1); Query (addr 2); Create] ∅
    = Done (tt, <[3%positive := Dog_new]> (<[2%positive := mkDog 7]> ∅)) ∧
  (size (<[3%positive := Dog_new]> (<[2%positive := mkDog 7]> (∅ : heap))) + 1
   = size (∅ : heap) + 3)%nat.
Proof.
  assert (Hrun : calls [Create; Create; Increment (addr 2) 7; Destroy nullptr;
                        Destroy (addr 1); Query (addr 2); Create] ∅
                 = Done (tt, <[3%positive := Dog_new]>
                               (<[2%positive := mkDog 7]> ∅)))
    by (by vm_compute).
  split; [exact Hrun | exact (live_objects_balance _ ∅ _ Hrun)].
Defined.

End DogSequences.

(** * Further properties of [send_udp_packet.cc] *)
Section UdpMarshalling.
Import Udp.
Implicit Types (array data : svOpenArrayHandle) (t : reads) (result : vector).

(** For every array with [int] bounds, readable from the left to the right
    bound, with an element count that is not negative and with the right
    bound below [INT_MAX], [read_data] returns once the fuel exceeds the
    number of indices.  It has read exactly the
    indices [low], [low + 1], ..., [high], in this order; the buffer has
    [max 0 (high - low + 1)] elements, and its element at position
    [i - low] is the element of the array at index [i]. *)
Theorem read_data_marshals fuel array t :
  readable array → 0 <= svSize array 1 → svRight array 1 < INT_MAX →
  (Z.to_nat (svRight array 1 + 1 - svLeft array 1) < fuel)%nat →
  ∃ buf, read_data fuel array t =
           Done (buf, t ++ seqZ (svLeft array 1)
                               (svRight array 1 + 1 - svLeft array 1)) ∧
         Z.of_nat (length buf) =
           Z.max 0 (svRight array 1 - svLeft array 1 + 1) ∧
         ∀ i, svLeft array 1 <= i <= svRight array 1 →
              buf !! Z.to_nat (i - svLeft array 1) = svGetArrElemPtr1 array i.
Proof. apply read_data_copies. Qed.

Lemma read_data_marshals_example :
  readable abc ∧ 0 <= svSize abc 1 ∧ svRight abc 1 < INT_MAX ∧
  ∃ buf, read_data 4 abc [] = Done (buf, [] ++ seqZ 0 (2 + 1 - 0)) ∧
         Z.of_nat (length buf) = Z.max 0 (2 - 0 + 1) ∧
         ∀ i, 0 <= i <= 2 →
              buf !! Z.to_nat (i - 0) = svGetArrElemPtr1 abc i.
Proof.
  assert (Hrd : readable abc) by (apply ascending_readable; by vm_compute).
  assert (Hsz : 0 <= svSize abc 1) by (by vm_compute).
  assert (Hhi : svRight abc 1 < INT_MAX) by reflexivity.
  split; [exact Hrd|]. split; [exact Hsz|]. split; [exact Hhi|].
  apply (read_data_marshals 4 abc [] Hrd Hsz Hhi). vm_compute. lia.
Defined.

(** For the same arrays (readable, element count not negative, right bound
    below [INT_MAX]) [send_udp_packet] returns 0, whatever the address and
    the port, after the reads of [read_data]; and on no array does it
    return another status. *)
Theorem send_udp_packet_succeeds fuel (ip_address : string) (port : Z) data t :
  readable data → 0 <= svSize data 1 → svRight data 1 < INT_MAX →
  (Z.to_nat (svRight data 1 + 1 - svLeft data 1) < fuel)%nat →
  send_udp_packet fuel ip_address port data t =
    Done (0, t ++ seqZ (svLeft data 1) (svRight data 1 + 1 - svLeft data 1)) ∧
  ∀ fuel' (ip' : string) (port' : Z) data' t0 status t',
    send_udp_packet fuel' ip' port' data' t0 = Done (status, t') → status = 0.
Proof.
  intros Hd Hsz Hhi Hfuel. split.
  - destruct (read_data_copies fuel data t Hd Hsz Hhi Hfuel) as (buf & E & _).
    by apply (send_udp_packet_Done _ _ _ _ _ buf).
  - intros fuel' ip' port' data' t0 status t'. apply send_udp_packet_status.
Qed.

Lemma send_udp_packet_succeeds_example :
  readable abc ∧ 0 <= svSize abc 1 ∧ svRight abc 1 < INT_MAX ∧
  send_udp_packet 4 "10.0.0.7" 9000 abc [] = Done (0, [0; 1; 2]) ∧
  ∀ fuel' (ip' : string) (port' : Z) data' t0 status t',
    send_udp_packet fuel' ip' port' data' t0 = Done (status, t') → status = 0.
Proof.
  assert (Hrd : readable abc) by (apply ascending_readable; by vm_compute).
  assert (Hsz : 0 <= svSize abc 1) by (by vm_compute).
  assert (Hhi : svRight abc 1 < INT_MAX) by reflexivity.
  split; [exact Hrd|]. split; [exact Hsz|]. split; [exact Hhi|].
  apply (send_udp_packet_succeeds 4 "10.0.0.7" 9000 abc [] Hrd Hsz Hhi).
  vm_compute. lia.
Defined.

(** On every array whose right bound is [INT_MAX] neither [read_data] nor
    [send_udp_packet] returns, whatever the elements and the fuel: the loop
    condition [i <= high] holds for every [int]. *)
Theorem no_return_at_INT_MAX fuel (ip_address : string) (port : Z) array t :
  is_int (svLeft array 1) → svRight array 1 = INT_MAX →
  (∀ r, read_data fuel array t ≠ Done r) ∧
  (∀ r, send_udp_packet fuel ip_address port array t ≠ Done r).
Proof.
  intros Hlo Hhi.
  assert (Hrd : ∀ r, read_data fuel array t ≠ Done r).
  { intros r. by apply read_data_INT_MAX. }
  split; [exact Hrd|].
  intros [status t'] (buf & t1 & E & _)%bind_inv. by apply (Hrd (buf, t1)).
Qed.

Lemma no_return_at_INT_MAX_example :
  is_int (svLeft top 1) ∧ svRight top 1 = INT_MAX ∧
  (∀ r, read_data 1000 top [] ≠ Done r) ∧
  (∀ r, send_udp_packet 1000 "10.0.0.7" 9000 top [] ≠ Done r).
Proof.
  assert (Hlo : is_int (svLeft top 1)) by (by vm_compute).
  split; [exact Hlo|]. split; [reflexivity|].
  exact (no_return_at_INT_MAX 1000 "10.0.0.7" 9000 top [] Hlo eq_refl).
Defined.

Lemma read_loop_hits_null fuel array high i j result t :
  INT_MIN <= i → i <= j <= high → j <= INT_MAX →
  (∀ k, i <= k < j → is_Some (svGetArrElemPtr1 array k)) →
  svGetArrElemPtr1 array j = None →
  (Z.to_nat (j - i) < fuel)%nat →
  read_loop fuel array high i result t = Undef.
Proof.
  revert i result t.
  induction fuel as [|fuel IH]; intros i result t Hlo Hij Hj Hrd Hnull Hfuel;
    [lia|].
  destruct (decide (i = j)) as [->|Hne].
  - apply read_loop_null; [lia|done].
  - destruct (Hrd i ltac:(lia)) as [value E].
    rewrite (read_loop_step fuel array high i result t value ltac:(lia) E).
    rewrite int_succ by lia.
    apply IH; [lia | lia | lia | intros k Hk; apply Hrd; lia | done | lia].
Qed.

(** [read_data] does not test the pointer that [svGetArrElemPtr1] returns:
    when the pointer is null for an index [j] between the bounds and the
    indices below [j] are readable, it reads through the null pointer, and
    neither it nor [send_udp_packet] returns. *)
Theorem null_element_is_undefined fuel (ip_address : string) (port : Z)
    array t (j : Z) :
  is_int (svLeft array 1) → is_int j →
  svLeft array 1 <= j <= svRight array 1 →
  (∀ i, svLeft array 1 <= i < j → is_Some (svGetArrElemPtr1 array i)) →
  svGetArrElemPtr1 array j = None →
  (Z.to_nat (j - svLeft array 1) < fuel)%nat →
  read_data fuel array t = Undef ∧
  send_udp_packet fuel ip_address port array t = Undef.
Proof.
  intros [Hlo _] [_ Hj] Hin Hrd Hnull Hfuel.
  assert (E : read_data fuel array t = Undef).
  { destruct (decide (0 <= svSize array 1)) as [Hsz|Hsz].
    - rewrite read_data_reserved by done.
      by apply (read_loop_hits_null _ _ _ _ j).
    - apply read_data_length_error. lia. }
  split; [exact E|]. unfold send_udp_packet. by apply bind_Undef.
Qed.

Lemma null_element_is_undefined_example :
  read_data 3 holed [] = Undef ∧
  send_udp_packet 3 "10.0.0.7" 9000 holed [] = Undef.
Proof.
  apply (null_element_is_undefined 3 "10.0.0.7" 9000 holed [] 2).
  - by vm_compute.
  - by vm_compute.
  - by vm_compute.
  - intros i Hi. simpl in Hi. assert (Hc : i = 0 ∨ i = 1) by lia.
    destruct Hc as [-> | ->]; by eexists.
  - reflexivity.
  - vm_compute. lia.
Defined.

(** Round trip through the handle: the buffer that [read_data] returns for
    the array made of [elems], indexed from [left] upwards, is [elems], and
    the reads are those of the [length elems] indices from [left] on. *)
Theorem read_data_ascending fuel (left : Z) (elems : list char) t :
  is_int left → left + Z.of_nat (length elems) - 1 < INT_MAX →
  (length elems < fuel)%nat →
  read_data fuel (ascending left elems) t =
    Done (elems, t ++ seqZ left (Z.of_nat (length elems))).
Proof.
  intros Hl Hr Hfuel.
  destruct (read_loop_copies fuel (ascending left elems)
              (left + Z.of_nat (length elems) - 1) left [] t)
    as (vs & Hrun & Hvs).
  - apply Hl.
  - done.
  - intros j Hj. simpl. rewrite bool_decide_eq_true_2 by lia.
    apply lookup_lt_is_Some. lia.
  - lia.
  - rewrite read_data_reserved by (simpl; lia).
    simpl svLeft. simpl svRight. rewrite Hrun.
    replace (left + Z.of_nat (length elems) - 1 + 1 - left)
      with (Z.of_nat (length elems)) in * by lia.
    simpl. do 2 f_equal. apply list_eq. intros n.
    destruct (decide (n < length elems)%nat) as [Hn|Hn].
    + assert (Hi : seqZ left (Z.of_nat (length elems)) !! n
                   = Some (left + Z.of_nat n)) by (apply lookup_seqZ_lt; lia).
      destruct (Forall2_lookup_l _ _ _ _ _ Hvs Hi) as (v & Hv & Hget).
      simpl in Hget. rewrite bool_decide_eq_true_2 in Hget by lia.
      replace (Z.to_nat (left + Z.of_nat n - left)) with n in Hget by lia.
      by rewrite Hv, Hget.
    + pose proof (Forall2_length _ _ _ Hvs) as Hlen.
      rewrite length_seqZ in Hlen.
      rewrite !lookup_ge_None_2; [done | lia | lia].
Qed.

Lemma read_data_ascending_example :
  read_data 3 (ascending (-1) [x00; xff]) [7] =
    Done ([x00; xff], [7] ++ seqZ (-1) 2).
Proof.
  apply (read_data_ascending 3 (-1) [x00; xff] [7]).
  - by vm_compute.
  - reflexivity.
  - simpl. lia.
Defined.

End UdpMarshalling.
